(** * A shallow embedding of tj_log.c (tj-tools logging facility)

    Pointers are [N] with [0] standing for NULL.  The memory holding
    output channels is a [gmap N tj_log_outchannel]; a freed channel is
    deleted from it, and reading a pointer that is NULL or not in the map
    is undefined behaviour, modelled as the absence of a result ([None]).
    Calls through function pointers (sink log and finalize functions,
    [atexit], the buffer and error collaborators) are recorded as events
    in a trace held in the state. *)

From Stdlib Require Import ZArith String List DecimalString Ascii.
From stdpp Require Import base gmap list.

Open Scope N_scope.

(** ** Data model *)

(** [tj_log_level] of tj_log.h. *)
Inductive tj_log_level :=
| TJ_LOG_LEVEL_VERBOSE
| TJ_LOG_LEVEL_LOGIC
| TJ_LOG_LEVEL_COMPONENT
| TJ_LOG_LEVEL_CRITICAL
| TJ_LOG_LEVEL_OUTPUT.

Definition tj_log_level_eqb (a b : tj_log_level) : bool :=
  match a, b with
  | TJ_LOG_LEVEL_VERBOSE, TJ_LOG_LEVEL_VERBOSE
  | TJ_LOG_LEVEL_LOGIC, TJ_LOG_LEVEL_LOGIC
  | TJ_LOG_LEVEL_COMPONENT, TJ_LOG_LEVEL_COMPONENT
  | TJ_LOG_LEVEL_CRITICAL, TJ_LOG_LEVEL_CRITICAL
  | TJ_LOG_LEVEL_OUTPUT, TJ_LOG_LEVEL_OUTPUT => true
  | _, _ => false
  end.

(** [tj_log_level_labels[level]]. *)
Definition tj_log_level_labels (l : tj_log_level) : string :=
  match l with
  | TJ_LOG_LEVEL_VERBOSE => "VERBOSE"
  | TJ_LOG_LEVEL_LOGIC => "LOGIC"
  | TJ_LOG_LEVEL_COMPONENT => "COMPONENT"
  | TJ_LOG_LEVEL_CRITICAL => "CRITICAL"
  | TJ_LOG_LEVEL_OUTPUT => "OUTPUT"
  end.

(** [struct tj_log_outchannel]; the two function pointers are [N] codes,
    [0] being the null function pointer. *)
Record tj_log_outchannel := mk_outchannel {
  m_allocated : Z;
  m_data : N;
  log : N;
  finalize : N;
  m_next : N
}.

Definition set_m_next (c : tj_log_outchannel) (n : N) : tj_log_outchannel :=
  mk_outchannel (m_allocated c) (m_data c) (log c) (finalize c) n.

(** Codes of the functions of tj_log.c taken by address. *)
Definition tj_log_fprintfLog_fn : N := 1.
Definition tj_log_fprintfLogFinalize_fn : N := 2.
Definition tj_log_logcatLog_fn : N := 3.

(** Arguments of the variadic part of [tj_log_log]. *)
Inductive va_arg :=
| VaInt (z : Z)
| VaStr (s : string).

(** Observable effects of the code. *)
Inductive event :=
| EvLog (node fn data : N) (level : tj_log_level) (component file func : string)
        (line : Z) (error : N) (msg : string)
        (** [out->log(out->m_data, level, ..., msg)] while visiting [node] *)
| EvFinalize (fn data : N)          (** [x->finalize(x->m_data)] *)
| EvFree (p : N)                    (** [free(p)] *)
| EvAtexit                          (** [atexit(&tj_log_finalize)] *)
| EvBufCreate (cap : N)             (** [tj_buffer_create(cap)] succeeded *)
| EvBufFree                         (** [tj_buffer_finalize(msg)] *)
| EvError (msg : string).           (** [TJ_ERROR(msg)] *)

(** The globals of tj_log.c together with the channel memory and the trace. *)
Record tj_log_state := mk_state {
  heap : gmap N tj_log_outchannel;
  tj_log_channelStack : N;
  tj_log_atexit : Z;
  trace : list event
}.

(** ** A state and undefined-behaviour monad *)

Definition M (A : Type) : Type := tj_log_state -> option (A * tj_log_state).

Definition ret {A} (a : A) : M A := fun s => Some (a, s).
Definition bind {A B} (m : M A) (k : A -> M B) : M B :=
  fun s => match m s with Some (a, s') => k a s' | None => None end.
Definition stuck {A} : M A := fun _ => None.

Notation "x <-- m ;; k" := (bind m (fun x => k))
  (at level 100, m at next level, right associativity).
Notation "m ;;; k" := (bind m (fun _ => k))
  (at level 100, right associativity).

Definition get_heap : M (gmap N tj_log_outchannel) := fun s => Some (heap s, s).
Definition get_head : M N := fun s => Some (tj_log_channelStack s, s).
Definition set_head (p : N) : M unit :=
  fun s => Some (tt, mk_state (heap s) p (tj_log_atexit s) (trace s)).
Definition get_atexit : M Z := fun s => Some (tj_log_atexit s, s).
Definition set_atexit (z : Z) : M unit :=
  fun s => Some (tt, mk_state (heap s) (tj_log_channelStack s) z (trace s)).
Definition emit (e : event) : M unit :=
  fun s => Some (tt, mk_state (heap s) (tj_log_channelStack s) (tj_log_atexit s)
                              (trace s ++ [e])).

(** [*p]: NULL or dangling dereferences are undefined. *)
Definition load (p : N) : M tj_log_outchannel :=
  fun s => if p =? 0 then None
           else match heap s !! p with Some c => Some (c, s) | None => None end.

Definition store (p : N) (c : tj_log_outchannel) : M unit :=
  fun s => if p =? 0 then None
           else match heap s !! p with
                | Some _ => Some (tt, mk_state (<[p := c]> (heap s))
                                               (tj_log_channelStack s)
                                               (tj_log_atexit s) (trace s))
                | None => None
                end.

(** [malloc(sizeof(tj_log_outchannel))]: [ok] says whether memory is
    available; the fresh block has unspecified (here zero) contents. *)
Definition malloc (ok : bool) : M N :=
  fun s => if ok then
             let p := fresh (dom (heap s) ∪ {[0]}) in
             Some (p, mk_state (<[p := mk_outchannel 0 0 0 0 0]> (heap s))
                               (tj_log_channelStack s) (tj_log_atexit s) (trace s))
           else Some (0, s).

Definition free (p : N) : M unit :=
  fun s => match heap s !! p with
           | Some _ => Some (tt, mk_state (delete p (heap s)) (tj_log_channelStack s)
                                          (tj_log_atexit s) (trace s ++ [EvFree p]))
           | None => None
           end.

(** ** Collaborators outside tj_log.c *)

(** [tj_buffer_create(cap)] of tj_buffer.c: [ok] says whether the
    allocation succeeds.  The buffer lives outside the channel memory; a
    created buffer is designated by the non-NULL handle [1]. *)
Definition tj_buffer_create (ok : bool) (cap : N) : M N :=
  if ok then emit (EvBufCreate cap) ;;; ret 1 else ret 0.

Definition tj_buffer_finalize (b : N) : M unit := emit EvBufFree.

(** Modelled from the spec: the [TJ_ERROR] macro of tj_error.h, which is
    not part of the sources at hand.  The spec requires the
    buffer-failure path to be special-cased so that it does not dispatch;
    the report is an out-of-band event. *)
Definition TJ_ERROR (msg : string) : M unit := emit (EvError msg).

(** ** tj_log.c: the channel registry and the dispatcher *)

Section Dispatcher.

(** [tj_buffer_vaprintf] followed by [tj_buffer_getAsString]: the
    rendering of a format string against its arguments. *)
Variable tj_buffer_vaprintf : string -> list va_arg -> string.

(** The loop [while (out != 0) { out->log(...); out = out->m_next; }].
    The call is not guarded: calling through a NULL [log] pointer is
    undefined, hence [stuck]. *)
Fixpoint dispatch_loop (fuel : nat) (out : N) (level : tj_log_level)
    (component file func : string) (line : Z) (error : N) (s : string) : M unit :=
  match fuel with
  | O => stuck
  | S f =>
      if out =? 0 then ret tt
      else c <-- load out ;;
           (if log c =? 0 then stuck
            else emit (EvLog out (log c) (m_data c) level component file func line error s)) ;;;
           c' <-- load out ;;
           dispatch_loop f (m_next c') level component file func line error s
  end.

(** [tj_log_log]; [buf_ok] says whether [tj_buffer_create(128)] succeeds.
    The loop is run with fuel one more than the number of channels in
    memory, enough for every acyclic chain. *)
Definition tj_log_log (buf_ok : bool) (level : tj_log_level)
    (component file func : string) (line : Z) (error : N)
    (m : string) (ap : list va_arg) : M unit :=
  msg <-- tj_buffer_create buf_ok 128 ;;
  (if msg =? 0 then TJ_ERROR "No memory for tj_log_log buffer."
   else let s := tj_buffer_vaprintf m ap in
        out <-- get_head ;;
        h <-- get_heap ;;
        dispatch_loop (S (size h)) out level component file func line error s) ;;;
  (* done: *)
  if msg =? 0 then ret tt else tj_buffer_finalize msg.

(** Modelled from the spec: the [TJ_LOG_CRITICAL(c, m)] macro of
    tj_log.h, which is not part of the sources at hand; the spec says a
    channel-creation failure is reported through the logging facility at
    CRITICAL level, i.e. by [tj_log_log] with no error object. *)
Definition TJ_LOG_CRITICAL (buf_ok : bool) (file func : string) (line : Z)
    (component m : string) : M unit :=
  tj_log_log buf_ok TJ_LOG_LEVEL_CRITICAL component file func line 0 m [].

(** [tj_log_outchannel_create]; [malloc_ok] says whether [malloc]
    succeeds, [buf_ok] whether the failure report gets its buffer. *)
Definition tj_log_outchannel_create (malloc_ok buf_ok : bool)
    (data log_fn finalize_fn : N) : M N :=
  x <-- malloc malloc_ok ;;
  if x =? 0 then
    TJ_LOG_CRITICAL buf_ok "tj_log.c" "tj_log_outchannel_create" 123
      "tj_log" "No memory to allocate tj_log_outchannel." ;;;
    ret 0
  else
    store x (mk_outchannel 1 data log_fn finalize_fn 0) ;;;
    ret x.

End Dispatcher.

Definition tj_log_outchannel_finalize (x : N) : M unit :=
  c <-- load x ;;
  (if finalize c =? 0 then ret tt else emit (EvFinalize (finalize c) (m_data c))) ;;;
  c' <-- load x ;;
  if (m_allocated c' =? 0)%Z then ret tt else free x.

Definition tj_log_addOutChannel (out : N) : M Z :=
  c <-- load out ;;
  hd <-- get_head ;;
  store out (set_m_next c hd) ;;;
  set_head out ;;;
  a <-- get_atexit ;;
  (if (a =? 0)%Z then emit EvAtexit ;;; set_atexit 1 else ret tt) ;;;
  ret 0%Z.

(** The scan [while (top != 0 && top != out) { prev = top; top = top->m_next; }],
    returning the final [(top, prev)]. *)
Fixpoint remove_scan (fuel : nat) (out top prev : N) : M (N * N) :=
  match fuel with
  | O => stuck
  | S f =>
      if (top =? 0) || (top =? out) then ret (top, prev)
      else c <-- load top ;; remove_scan f out (m_next c) top
  end.

Definition tj_log_removeOutChannel (out : N) : M unit :=
  top0 <-- get_head ;;
  h <-- get_heap ;;
  tp <-- remove_scan (S (size h)) out top0 0 ;;
  let '(top, prev) := tp in
  if top =? 0 then ret tt
  else
    (if prev =? 0 then ret tt
     else cp <-- load prev ;; ct <-- load top ;; store prev (set_m_next cp (m_next ct))) ;;;
    tj_log_outchannel_finalize out.

(** The loop of [tj_log_finalize]. *)
Fixpoint finalize_loop (fuel : nat) (out : N) : M unit :=
  match fuel with
  | O => stuck
  | S f =>
      if out =? 0 then ret tt
      else c <-- load out ;;
           let next := m_next c in
           tj_log_outchannel_finalize out ;;;
           finalize_loop f next
  end.

Definition tj_log_finalize : M unit :=
  out <-- get_head ;;
  h <-- get_heap ;;
  finalize_loop (S (size h)) out ;;;
  set_atexit 0.

(** ** Initial registry (non-Android build) *)

Definition tj_log_fprintfChannel_ptr : N := 1.

Definition tj_log_fprintfChannel : tj_log_outchannel :=
  mk_outchannel 0 0 tj_log_fprintfLog_fn tj_log_fprintfLogFinalize_fn 0.

Definition tj_log_init : tj_log_state :=
  mk_state {[tj_log_fprintfChannel_ptr := tj_log_fprintfChannel]}
           tj_log_fprintfChannel_ptr 0 [].

(** [tj_log_removePrintfChannel]. *)
Definition tj_log_removePrintfChannel : M Z :=
  tj_log_removeOutChannel tj_log_fprintfChannel_ptr ;;; ret 0%Z.

(** [tj_log_removeLogcatChannel] (non-Android build: the body is empty). *)
Definition tj_log_removeLogcatChannel : M Z := ret 0%Z.

(** [tj_log_setData]: [out->m_data = data]. *)
Definition tj_log_setData (out data : N) : M unit :=
  c <-- load out ;;
  store out (mk_outchannel (m_allocated c) data (log c) (finalize c) (m_next c)).

(** ** The built-in sinks *)

Definition newline : string := String (Ascii.ascii_of_nat 10) EmptyString.

(** [%d] of a C [int]. *)
Definition fmt_d (z : Z) : string := NilEmpty.string_of_int (Z.to_int z).

(** Modelled from the spec: [TJ_LOG_STREAM] of tj_log.h, the default
    stream (standard error), designated by the [FILE *] handle [2]. *)
Definition TJ_LOG_STREAM : N := 2.

Section Sinks.

(** [tj_error_getMessage] of tj_error.c. *)
Variable tj_error_getMessage : N -> string.

(** [tj_log_fprintfLog]; [date] is the result of [strftime] on the
    current local time.  The result lists the [fprintf] calls as
    (stream, text written). *)
Definition tj_log_fprintfLog (date : string) (data : N) (level : tj_log_level)
    (component file func : string) (line : Z) (error : N) (msg : string)
    : list (N * string) :=
  let out := if data =? 0 then TJ_LOG_STREAM else data in
  let first :=
    if tj_log_level_eqb level TJ_LOG_LEVEL_OUTPUT then
      (out, date ++ " " ++ msg ++ newline)%string
    else if negb (tj_log_level_eqb level TJ_LOG_LEVEL_CRITICAL) then
      (out, date ++ " " ++ component ++ " " ++ msg ++ newline)%string
    else
      (out, "[" ++ tj_log_level_labels level ++ "] " ++ date ++ " " ++ component
              ++ " " ++ file ++ ":" ++ func ++ ":" ++ fmt_d line ++ ": " ++ msg
              ++ newline)%string in
  first :: (if error =? 0 then []
            else [(out, tj_error_getMessage error ++ newline)%string]).

(** [android_LogPriority] values used by the logcat sink. *)
Inductive android_LogPriority :=
| ANDROID_LOG_VERBOSE
| ANDROID_LOG_DEBUG
| ANDROID_LOG_INFO
| ANDROID_LOG_ERROR.

(** [tj_log_logcatLog] (Android builds).  The result lists the
    [__android_log_print] calls as (priority, tag, text). *)
Definition tj_log_logcatLog (data : N) (level : tj_log_level)
    (component file func : string) (line : Z) (error : N) (msg : string)
    : list (android_LogPriority * string * string) :=
  let pri :=
    match level with
    | TJ_LOG_LEVEL_VERBOSE => ANDROID_LOG_VERBOSE
    | TJ_LOG_LEVEL_LOGIC => ANDROID_LOG_DEBUG
    | TJ_LOG_LEVEL_COMPONENT => ANDROID_LOG_INFO
    | TJ_LOG_LEVEL_CRITICAL => ANDROID_LOG_ERROR
    | TJ_LOG_LEVEL_OUTPUT => ANDROID_LOG_INFO
    end in
  let first :=
    if negb (tj_log_level_eqb level TJ_LOG_LEVEL_CRITICAL) then
      (pri, component, msg)
    else
      (pri, component, (file ++ ":" ++ func ++ ":" ++ fmt_d line ++ ": " ++ msg)%string) in
  first :: (if error =? 0 then [] else [(pri, component, tj_error_getMessage error)]).

End Sinks.

(** ** Well-formed registry chains *)

(** [chain h p l]: following [m_next] links from [p] through the
    channel memory [h] visits exactly the channels [l] and ends in NULL. *)
Inductive chain (h : gmap N tj_log_outchannel) : N -> list N -> Prop :=
| chain_nil : chain h 0 []
| chain_cons p c l :
    p <> 0 -> h !! p = Some c -> chain h (m_next c) l -> chain h p (p :: l).

(** The log event emitted when channel [p] of [h] receives a message. *)
Definition log_event (h : gmap N tj_log_outchannel) (level : tj_log_level)
    (component file func : string) (line : Z) (error : N) (s : string) (p : N) : event :=
  match h !! p with
  | Some c => EvLog p (log c) (m_data c) level component file func line error s
  | None => EvLog p 0 0 level component file func line error s
  end.

(** Every channel of [l] has a non-NULL log function. *)
Definition logs_nonnull (h : gmap N tj_log_outchannel) (l : list N) : bool :=
  forallb (fun p => match h !! p with Some c => negb (log c =? 0) | None => false end) l.

(** What [tj_log_outchannel_finalize p] does to the memory and the trace. *)
Definition fin_events (h : gmap N tj_log_outchannel) (p : N) : list event :=
  match h !! p with
  | Some c =>
      (if finalize c =? 0 then [] else [EvFinalize (finalize c) (m_data c)]) ++
      (if (m_allocated c =? 0)%Z then [] else [EvFree p])
  | None => []
  end.

Definition fin_heap (h : gmap N tj_log_outchannel) (p : N) : gmap N tj_log_outchannel :=
  match h !! p with
  | Some c => if (m_allocated c =? 0)%Z then h else delete p h
  | None => h
  end.

(** Finalizing the channels [l] one after the other. *)
Fixpoint fin_trace (h : gmap N tj_log_outchannel) (l : list N) : list event :=
  match l with
  | [] => []
  | p :: l' => fin_events h p ++ fin_trace (fin_heap h p) l'
  end.

Fixpoint release (h : gmap N tj_log_outchannel) (l : list N) : gmap N tj_log_outchannel :=
  match l with
  | [] => h
  | p :: l' => release (fin_heap h p) l'
  end.

(** One call of [tj_log_log] with a buffer, as recorded in the trace. *)
Record log_call := mk_log_call {
  lc_level : tj_log_level;
  lc_component : string;
  lc_file : string;
  lc_func : string;
  lc_line : Z;
  lc_error : N;
  lc_m : string;
  lc_ap : list va_arg
}.

(** A sequence of [tj_log_log] calls whose buffers are all created. *)
Fixpoint run_logs (vp : string -> list va_arg -> string) (cs : list log_call) : M unit :=
  match cs with
  | [] => ret tt
  | c :: cs' =>
      tj_log_log vp true (lc_level c) (lc_component c) (lc_file c) (lc_func c)
        (lc_line c) (lc_error c) (lc_m c) (lc_ap c) ;;;
      run_logs vp cs'
  end.

Definition is_log_of (p : N) (e : event) : bool :=
  match e with EvLog q _ _ _ _ _ _ _ _ _ => q =? p | _ => false end.

(** ** Lemmas on chains *)

Ltac mstep :=
  unfold bind, ret, emit, load, get_head, get_heap, set_head, get_atexit, set_atexit,
    stuck; simpl.

Lemma chain_det h p l1 l2 : chain h p l1 -> chain h p l2 -> l1 = l2.
Proof.
  intros H1. revert l2. induction H1 as [|p c l Hp Hc Hl IH]; intros l2 H2.
  - inversion H2; [done | congruence].
  - inversion H2 as [Hz|p' c' l' Hp' Hc' Hl']; subst; [done|].
    rewrite Hc in Hc'. injection Hc' as <-. f_equal. by apply IH.
Qed.

Lemma chain_suffix h p l x :
  chain h p l -> x ∈ l -> exists l', chain h x l' /\ (length l' <= length l)%nat.
Proof.
  induction 1 as [|p c l Hp Hc Hl IH]; intros Hx.
  - by apply elem_of_nil in Hx.
  - apply elem_of_cons in Hx as [->|Hx].
    + exists (p :: l). split; [econstructor; eauto | lia].
    + destruct (IH Hx) as (l' & H' & Hlen). exists l'. simpl. split; [done | lia].
Qed.

Lemma chain_NoDup h p l : chain h p l -> NoDup l.
Proof.
  induction 1 as [|p c l Hp Hc Hl IH]; constructor; [|done].
  intros Hin. destruct (chain_suffix _ _ _ _ Hl Hin) as (l' & H' & Hlen).
  assert (chain h p (p :: l)) as Hpl by (econstructor; eauto).
  pose proof (chain_det _ _ _ _ H' Hpl) as ->. simpl in Hlen. lia.
Qed.

Lemma chain_in h p l q : chain h p l -> q ∈ l -> q <> 0 /\ is_Some (h !! q).
Proof.
  induction 1 as [|p c l Hp Hc Hl IH]; intros Hq.
  - by apply elem_of_nil in Hq.
  - apply elem_of_cons in Hq as [->|Hq]; [by eauto | by apply IH].
Qed.

Lemma chain_length_size h p l : chain h p l -> (length l <= size h)%nat.
Proof.
  intros H. rewrite <- (size_list_to_set (C := gset N) l) by (eapply chain_NoDup; eauto).
  rewrite <- size_dom. apply subseteq_size. intros q Hq.
  apply elem_of_list_to_set in Hq. apply elem_of_dom. by eapply chain_in.
Qed.

Lemma chain_delete h p l q : chain h p l -> q ∉ l -> chain (delete q h) p l.
Proof.
  induction 1 as [|p c l Hp Hc Hl IH]; intros Hq; [constructor|].
  apply not_elem_of_cons in Hq as [Hqp Hq].
  econstructor; [done | | by apply IH]. rewrite lookup_delete_ne; auto.
Qed.

Lemma chain_insert h p l q c' : chain h p l -> q ∉ l -> chain (<[q := c']> h) p l.
Proof.
  induction 1 as [|p c l Hp Hc Hl IH]; intros Hq; [constructor|].
  apply not_elem_of_cons in Hq as [Hqp Hq].
  econstructor; [done | | by apply IH]. rewrite lookup_insert_ne; auto.
Qed.

(** ** Lemmas on the loops *)

Lemma dispatch_loop_chain h l : forall out fuel st level component file func line error s,
  chain h out l -> logs_nonnull h l = true -> heap st = h -> (length l < fuel)%nat ->
  dispatch_loop fuel out level component file func line error s st =
  Some (tt, mk_state h (tj_log_channelStack st) (tj_log_atexit st)
                 (trace st ++ map (log_event h level component file func line error s) l)).
Proof.
  induction l as [|p l IH]; intros out fuel [hs hd ax tr] level component file func
    line error s Hch Hnn Hh Hf; simpl in Hh; subst hs;
    (destruct fuel as [|fuel]; [simpl in Hf; lia|]).
  - inversion Hch; subst. simpl. by rewrite app_nil_r.
  - inversion Hch as [|p' c l' Hp Hc Hl]; subst. simpl.
    simpl in Hnn. rewrite Hc in Hnn. apply andb_prop in Hnn as [Hlog Hnn].
    apply negb_true_iff in Hlog.
    destruct (N.eqb_spec p 0) as [|_]; [done|].
    mstep. destruct (N.eqb_spec p 0) as [|_]; [done|]. rewrite Hc. simpl. rewrite Hlog.
    simpl. rewrite Hc.
    rewrite (IH _ fuel) by (simpl in *; auto with lia). simpl.
    assert (Hev : log_event h level component file func line error s p =
                  EvLog p (log c) (m_data c) level component file func line error s)
      by (unfold log_event; by rewrite Hc).
    rewrite Hev. by rewrite <- app_assoc.
Qed.

Lemma remove_scan_absent h l : forall top prev fuel st out,
  chain h top l -> heap st = h -> out ∉ l -> (length l < fuel)%nat ->
  exists prev', remove_scan fuel out top prev st = Some ((0, prev'), st).
Proof.
  induction l as [|p l IH]; intros top prev fuel st out Hch Hh Hout Hf;
    (destruct fuel as [|fuel]; [simpl in Hf; lia|]).
  - inversion Hch; subst. exists prev. done.
  - inversion Hch as [|p' c l' Hp Hc Hl]; subst.
    apply not_elem_of_cons in Hout as [Hne Hout]. simpl.
    destruct (N.eqb_spec p 0) as [|_]; [done|].
    destruct (N.eqb_spec p out) as [|_]; [congruence|]. simpl.
    unfold bind, load. destruct (N.eqb_spec p 0) as [|_]; [done|]. rewrite Hc.
    apply (IH _ p fuel); simpl in *; auto with lia.
Qed.

Lemma outchannel_finalize_step p c st :
  p <> 0 -> heap st !! p = Some c ->
  tj_log_outchannel_finalize p st =
  Some (tt, mk_state (fin_heap (heap st) p) (tj_log_channelStack st) (tj_log_atexit st)
                 (trace st ++ fin_events (heap st) p)).
Proof.
  intros Hp Hc. destruct st as [h hd ax tr]; simpl in *.
  apply N.eqb_neq in Hp.
  unfold tj_log_outchannel_finalize, fin_heap, fin_events. mstep. rewrite Hp, Hc. simpl.
  destruct (finalize c =? 0); simpl; rewrite ?Hp, ?Hc; simpl;
    destruct (m_allocated c =? 0)%Z; simpl; unfold free; simpl; rewrite ?Hc; simpl;
    by rewrite ?app_nil_r, <-?app_assoc.
Qed.

Lemma finalize_loop_chain l : forall h out fuel st,
  chain h out l -> heap st = h -> (length l < fuel)%nat ->
  finalize_loop fuel out st =
  Some (tt, mk_state (release h l) (tj_log_channelStack st) (tj_log_atexit st)
                 (trace st ++ fin_trace h l)).
Proof.
  induction l as [|p l IH]; intros h out fuel st Hch Hh Hf;
    (destruct fuel as [|fuel]; [simpl in Hf; lia|]).
  - inversion Hch; subst. destruct st; simpl. by rewrite app_nil_r.
  - pose proof (chain_NoDup _ _ _ Hch) as Hnd. apply NoDup_cons in Hnd as [Hnin _].
    inversion Hch as [|p' c l' Hp Hc Hl]; subst. simpl.
    destruct (N.eqb_spec p 0) as [|_]; [done|].
    unfold bind at 1, load. destruct (N.eqb_spec p 0) as [|_]; [done|]. rewrite Hc.
    unfold bind. rewrite (outchannel_finalize_step p c) by done.
    rewrite (IH (fin_heap (heap st) p)); simpl; auto with lia.
    + by rewrite <- app_assoc.
    + unfold fin_heap. rewrite Hc. destruct (m_allocated c =? 0)%Z; [done|].
      by apply chain_delete.
    + simpl in Hf. lia.
Qed.

Lemma tj_log_log_buffer_ok vp level component file func line error m ap st l :
  chain (heap st) (tj_log_channelStack st) l -> logs_nonnull (heap st) l = true ->
  tj_log_log vp true level component file func line error m ap st =
  Some (tt, mk_state (heap st) (tj_log_channelStack st) (tj_log_atexit st)
                 (trace st ++ [EvBufCreate 128] ++
                  map (log_event (heap st) level component file func line error (vp m ap)) l ++
                  [EvBufFree])).
Proof.
  intros Hch Hnn. destruct st as [h hd ax tr]; simpl in *.
  unfold tj_log_log, tj_buffer_create, tj_buffer_finalize.
  unfold bind, ret, emit, get_head, get_heap. cbn -[dispatch_loop].
  rewrite (dispatch_loop_chain h l); simpl; auto.
  - by rewrite <- !app_assoc.
  - pose proof (chain_length_size _ _ _ Hch). lia.
Qed.

Lemma tj_log_log_buffer_fail vp level component file func line error m ap st :
  tj_log_log vp false level component file func line error m ap st =
  Some (tt, mk_state (heap st) (tj_log_channelStack st) (tj_log_atexit st)
                 (trace st ++ [EvError "No memory for tj_log_log buffer."])).
Proof. destruct st. reflexivity. Qed.

Lemma count_log_events h level component file func line error s l p :
  NoDup l -> p ∈ l ->
  length (List.filter (is_log_of p) (map (log_event h level component file func line error s) l)) = 1%nat.
Proof.
  induction l as [|q l IH]; intros Hnd Hp; [by apply elem_of_nil in Hp|].
  apply NoDup_cons in Hnd as [Hq Hnd].
  assert (Hlog : forall r, is_log_of p (log_event h level component file func line error s r) = (r =? p)).
  { intros r. unfold log_event. by destruct (h !! r). }
  simpl. rewrite Hlog. apply elem_of_cons in Hp as [Heq|Hp].
  - subst q. rewrite N.eqb_refl. simpl. f_equal.
    clear IH. induction l as [|r l IHl]; [done|]. simpl. rewrite Hlog.
    apply not_elem_of_cons in Hq as [Hr Hq]. apply NoDup_cons in Hnd as [_ Hnd].
    destruct (N.eqb_spec r p); [congruence|]. auto.
  - destruct (N.eqb_spec q p) as [->|]; [done|]. auto.
Qed.

(** ** The claims *)

(** C3: dispatching N messages (each of whose buffers is created) through a
    registry chain [l] invokes the log function of every channel of [l]
    exactly once per message, with that message's rendered string, in
    chain order from head to tail; so every channel is invoked exactly N
    times.  The registry is not changed.  The chained channels are
    required to have a log function: the call through a NULL one is
    undefined. *)
Theorem tj_log_log_dispatch_each_channel (vp : string -> list va_arg -> string)
    (cs : list log_call) (st : tj_log_state) (l : list N) :
  chain (heap st) (tj_log_channelStack st) l -> logs_nonnull (heap st) l = true ->
  exists st', run_logs vp cs st = Some (tt, st') /\
    heap st' = heap st /\ tj_log_channelStack st' = tj_log_channelStack st /\
    tj_log_atexit st' = tj_log_atexit st /\
    exists t, trace st' = trace st ++ t /\
      t = flat_map (fun c =>
            [EvBufCreate 128] ++
            map (log_event (heap st) (lc_level c) (lc_component c) (lc_file c) (lc_func c)
                   (lc_line c) (lc_error c) (vp (lc_m c) (lc_ap c))) l ++
            [EvBufFree]) cs /\
      (forall p, p ∈ l -> length (List.filter (is_log_of p) t) = length cs).
Proof.
  intros Hch Hnn.
  assert (Hrun : exists st', run_logs vp cs st = Some (tt, st') /\
    heap st' = heap st /\ tj_log_channelStack st' = tj_log_channelStack st /\
    tj_log_atexit st' = tj_log_atexit st /\
    trace st' = trace st ++ flat_map (fun c =>
            [EvBufCreate 128] ++
            map (log_event (heap st) (lc_level c) (lc_component c) (lc_file c) (lc_func c)
                   (lc_line c) (lc_error c) (vp (lc_m c) (lc_ap c))) l ++
            [EvBufFree]) cs).
  { revert st Hch Hnn. induction cs as [|c cs IH]; intros st Hch Hnn.
    - exists st. simpl. by rewrite app_nil_r.
    - simpl. unfold bind at 1. rewrite (tj_log_log_buffer_ok _ _ _ _ _ _ _ _ _ _ l Hch Hnn).
      destruct (IH (mk_state (heap st) (tj_log_channelStack st) (tj_log_atexit st)
                     (trace st ++ [EvBufCreate 128] ++
                      map (log_event (heap st) (lc_level c) (lc_component c) (lc_file c)
                             (lc_func c) (lc_line c) (lc_error c) (vp (lc_m c) (lc_ap c))) l ++
                      [EvBufFree])) Hch Hnn) as (st' & Hr & Hh & Hhd & Hax & Htr).
      exists st'. simpl in *. rewrite Hr. repeat split; try done.
      rewrite Htr. by repeat (rewrite <- app_assoc || rewrite <- app_comm_cons). }
  destruct Hrun as (st' & Hr & Hh & Hhd & Hax & Htr).
  exists st'. repeat split; try done.
  eexists. split; [exact Htr|]. split; [done|].
  intros p Hp. pose proof (chain_NoDup _ _ _ Hch) as Hnd.
  clear Hr Htr. induction cs as [|c cs IH]; [done|].
  simpl. rewrite !List.filter_app, !length_app. simpl.
  simpl in IH. rewrite count_log_events by done. rewrite IH. lia.
Qed.

(** C4: when the message buffer cannot be created, [tj_log_log] invokes
    no channel (only the failure report is made) and leaves the registry
    unchanged; when it is created (and the chained channels have log
    functions), it is released as the last action of the call, after
    the dispatch. *)
Theorem tj_log_log_buffer_failure_abandons (vp : string -> list va_arg -> string)
    level component file func line error m ap (st : tj_log_state) (l : list N) :
  chain (heap st) (tj_log_channelStack st) l ->
  tj_log_log vp false level component file func line error m ap st =
    Some (tt, mk_state (heap st) (tj_log_channelStack st) (tj_log_atexit st)
                   (trace st ++ [EvError "No memory for tj_log_log buffer."])) /\
  (logs_nonnull (heap st) l = true ->
   tj_log_log vp true level component file func line error m ap st =
    Some (tt, mk_state (heap st) (tj_log_channelStack st) (tj_log_atexit st)
                   (trace st ++ [EvBufCreate 128] ++
                    map (log_event (heap st) level component file func line error (vp m ap)) l ++
                    [EvBufFree]))).
Proof.
  intros Hch. split.
  - apply tj_log_log_buffer_fail.
  - intros Hnn. by apply tj_log_log_buffer_ok.
Qed.

Lemma tj_log_addOutChannel_step out c st :
  out <> 0 -> heap st !! out = Some c ->
  tj_log_addOutChannel out st =
  Some (0%Z, mk_state (<[out := set_m_next c (tj_log_channelStack st)]> (heap st)) out
                  (if (tj_log_atexit st =? 0)%Z then 1%Z else tj_log_atexit st)
                  (trace st ++ if (tj_log_atexit st =? 0)%Z then [EvAtexit] else [])).
Proof.
  intros Hout Hc. apply N.eqb_neq in Hout. destruct st as [h hd ax tr]; simpl in *.
  unfold tj_log_addOutChannel, store. mstep. rewrite Hout, Hc. simpl. rewrite ?Hout, ?Hc.
  simpl. destruct (ax =? 0)%Z; simpl; by rewrite ?app_nil_r.
Qed.

Lemma tj_log_finalize_chain st l :
  chain (heap st) (tj_log_channelStack st) l ->
  tj_log_finalize st =
  Some (tt, mk_state (release (heap st) l) (tj_log_channelStack st) 0%Z
                 (trace st ++ fin_trace (heap st) l)).
Proof.
  intros Hch. destruct st as [h hd ax tr]; simpl in *.
  unfold tj_log_finalize. unfold bind, get_head, get_heap.
  rewrite (finalize_loop_chain l h); simpl; auto.
  pose proof (chain_length_size _ _ _ Hch). lia.
Qed.

(** C10: [tj_log_addOutChannel] validates nothing and always returns 0:
    for every channel it makes it the registry head, its [m_next] link
    being the previous head, whatever channel it is (even one already in
    the chain). *)
Theorem tj_log_addOutChannel_pushes (out : N) (c : tj_log_outchannel) (st : tj_log_state) :
  out <> 0 -> heap st !! out = Some c ->
  exists st', tj_log_addOutChannel out st = Some (0%Z, st') /\
    tj_log_channelStack st' = out /\
    heap st' = <[out := set_m_next c (tj_log_channelStack st)]> (heap st) /\
    heap st' !! out = Some (mk_outchannel (m_allocated c) (m_data c) (log c) (finalize c)
                                          (tj_log_channelStack st)).
Proof.
  intros Hout Hc. rewrite (tj_log_addOutChannel_step out c st Hout Hc).
  eexists. repeat split. simpl. apply lookup_insert_eq.
Qed.

(** C5: the exit-hook flag is a one-shot latch.  An add with the flag
    clear schedules [tj_log_finalize] with [atexit] once and sets the
    flag; an add with the flag set schedules nothing; [tj_log_finalize]
    clears the flag; after it, an add schedules the hook exactly once
    more, and a further add does not. *)
Theorem tj_log_atexit_one_shot (st : tj_log_state) (l : list N) (out : N) (c : tj_log_outchannel) :
  chain (heap st) (tj_log_channelStack st) l -> out <> 0 -> heap st !! out = Some c ->
  (exists st', tj_log_addOutChannel out st = Some (0%Z, st') /\
     (tj_log_atexit st = 0%Z -> tj_log_atexit st' = 1%Z /\ trace st' = trace st ++ [EvAtexit]) /\
     (tj_log_atexit st <> 0%Z -> tj_log_atexit st' = tj_log_atexit st /\ trace st' = trace st)) /\
  (exists st1, tj_log_finalize st = Some (tt, st1) /\ tj_log_atexit st1 = 0%Z /\
     forall out1 c1, out1 <> 0 -> heap st1 !! out1 = Some c1 ->
       exists st2, tj_log_addOutChannel out1 st1 = Some (0%Z, st2) /\
         tj_log_atexit st2 = 1%Z /\ trace st2 = trace st1 ++ [EvAtexit] /\
         forall out2 c2, out2 <> 0 -> heap st2 !! out2 = Some c2 ->
           exists st3, tj_log_addOutChannel out2 st2 = Some (0%Z, st3) /\
             tj_log_atexit st3 = 1%Z /\ trace st3 = trace st2).
Proof.
  intros Hch Hout Hc. split.
  - rewrite (tj_log_addOutChannel_step out c st Hout Hc). eexists. split; [done|]. simpl.
    split; intros Hax.
    + rewrite Hax. done.
    + apply Z.eqb_neq in Hax. rewrite Hax. by rewrite app_nil_r.
  - rewrite (tj_log_finalize_chain st l Hch). eexists. split; [done|]. split; [done|].
    intros out1 c1 Hout1 Hc1. rewrite (tj_log_addOutChannel_step out1 c1 (mk_state _ _ _ _) Hout1 Hc1).
    eexists. split; [done|]. simpl. split; [done|]. split; [done|].
    intros out2 c2 Hout2 Hc2. rewrite (tj_log_addOutChannel_step out2 c2 (mk_state _ _ _ _) Hout2 Hc2).
    eexists. split; [done|]. simpl. split; [done|]. by rewrite app_nil_r.
Qed.

(** C9: removing a channel that is not in the registry chain changes
    nothing at all: the head, every link and the memory are as before,
    and no finalize function is called (the trace is unchanged). *)
Theorem tj_log_removeOutChannel_absent (out : N) (st : tj_log_state) (l : list N) :
  chain (heap st) (tj_log_channelStack st) l -> out ∉ l ->
  tj_log_removeOutChannel out st = Some (tt, st).
Proof.
  intros Hch Hout. unfold tj_log_removeOutChannel, bind at 1, get_head.
  unfold bind at 1, get_heap.
  destruct (remove_scan_absent (heap st) l (tj_log_channelStack st) 0
              (S (size (heap st))) st out Hch eq_refl Hout) as [prev' Hs].
  { pose proof (chain_length_size _ _ _ Hch). lia. }
  unfold bind. rewrite Hs. done.
Qed.

(** C8: when [malloc] fails, [tj_log_outchannel_create] returns NULL and
    the registry (memory, head, flag, hence the chain) is unchanged; when
    it succeeds, it returns a fresh non-NULL channel with ownership flag
    1, the given data, log and finalize functions, and a NULL link.  The
    failure report is dispatched when its buffer is created, so then the
    chained channels are required to have log functions. *)
Theorem tj_log_outchannel_create_spec (vp : string -> list va_arg -> string) (buf_ok : bool)
    (data log_fn finalize_fn : N) (st : tj_log_state) (l : list N) :
  chain (heap st) (tj_log_channelStack st) l ->
  ((buf_ok = true -> logs_nonnull (heap st) l = true) ->
   exists st', tj_log_outchannel_create vp false buf_ok data log_fn finalize_fn st = Some (0, st') /\
     heap st' = heap st /\ tj_log_channelStack st' = tj_log_channelStack st /\
     tj_log_atexit st' = tj_log_atexit st /\ chain (heap st') (tj_log_channelStack st') l) /\
  (exists x st', tj_log_outchannel_create vp true buf_ok data log_fn finalize_fn st = Some (x, st') /\
     x <> 0 /\ heap st !! x = None /\
     heap st' = <[x := mk_outchannel 1 data log_fn finalize_fn 0]> (heap st) /\
     heap st' !! x = Some (mk_outchannel 1 data log_fn finalize_fn 0) /\
     tj_log_channelStack st' = tj_log_channelStack st /\ tj_log_atexit st' = tj_log_atexit st /\
     chain (heap st') (tj_log_channelStack st') l).
Proof.
  intros Hch. split.
  - intros Hnn.
    unfold tj_log_outchannel_create, TJ_LOG_CRITICAL, bind at 1, malloc. simpl.
    destruct buf_ok; unfold bind;
      [rewrite (tj_log_log_buffer_ok _ _ _ _ _ _ _ _ _ _ l Hch (Hnn eq_refl))
      | rewrite tj_log_log_buffer_fail];
      eexists; (split; [reflexivity|]); simpl; auto.
  - set (x := fresh (dom (heap st) ∪ {[0]})).
    assert (Hx : x ∉ dom (heap st) ∪ {[0]}) by apply is_fresh.
    assert (Hx0 : x <> 0) by (intros ->; set_solver).
    assert (HxN : heap st !! x = None) by (apply not_elem_of_dom; set_solver).
    exists x. unfold tj_log_outchannel_create, bind at 1, malloc. simpl. fold x.
    apply N.eqb_neq in Hx0 as Hx0'. rewrite Hx0'.
    unfold bind, store, ret. simpl. rewrite Hx0', lookup_insert_eq. simpl.
    eexists. split; [reflexivity|]. simpl.
    repeat split; try done.
    + apply insert_insert_eq.
    + apply lookup_insert_eq.
    + rewrite insert_insert_eq. apply chain_insert; [done|].
      intros Hin. destruct (chain_in _ _ _ _ Hch Hin) as [_ [? Hs]]. congruence.
Qed.

(** C6: for a fixed timestamp [date], the console sink writes first
    exactly "<date> <msg>\n" at level OUTPUT, exactly
    "[CRITICAL] <date> <component> <file>:<func>:<line>: <msg>\n" at level
    CRITICAL, and exactly "<date> <component> <msg>\n" at every other
    level, to the channel's stream or to the default stream when the data
    handle is NULL; with no error object that is all it writes. *)
Theorem tj_log_fprintfLog_format (getMessage : N -> string) (date : string) (data : N)
    (component file func : string) (line : Z) (error : N) (msg : string) :
  let out := if data =? 0 then TJ_LOG_STREAM else data in
  let first level := hd_error (tj_log_fprintfLog getMessage date data level component file func
                                 line error msg) in
  let only level := tj_log_fprintfLog getMessage date data level component file func line 0 msg in
  first TJ_LOG_LEVEL_OUTPUT = Some (out, date ++ " " ++ msg ++ newline)%string /\
  only TJ_LOG_LEVEL_OUTPUT = [(out, date ++ " " ++ msg ++ newline)%string] /\
  first TJ_LOG_LEVEL_CRITICAL =
    Some (out, "[CRITICAL] " ++ date ++ " " ++ component ++ " " ++ file ++ ":" ++ func ++ ":"
                 ++ fmt_d line ++ ": " ++ msg ++ newline)%string /\
  only TJ_LOG_LEVEL_CRITICAL =
    [(out, "[CRITICAL] " ++ date ++ " " ++ component ++ " " ++ file ++ ":" ++ func ++ ":"
             ++ fmt_d line ++ ": " ++ msg ++ newline)%string] /\
  Forall (fun level =>
      first level = Some (out, date ++ " " ++ component ++ " " ++ msg ++ newline)%string /\
      only level = [(out, date ++ " " ++ component ++ " " ++ msg ++ newline)%string])
    [TJ_LOG_LEVEL_VERBOSE; TJ_LOG_LEVEL_LOGIC; TJ_LOG_LEVEL_COMPONENT].
Proof.
  intros out first only. subst out first only.
  repeat split; repeat constructor.
Qed.

(** C7: at every level, when the error object is non-NULL each sink makes
    exactly one further write after the main line, holding the error's
    rendered message (followed by a newline on the console sink; as its
    own log entry on the logcat sink); with a NULL error object it makes
    none. *)
Theorem tj_log_sinks_error_line (getMessage : N -> string) (date : string) (data : N)
    (level : tj_log_level) (component file func : string) (line : Z) (error : N) (msg : string) :
  (exists first,
     tj_log_fprintfLog getMessage date data level component file func line error msg =
     first :: (if error =? 0 then []
               else [((if data =? 0 then TJ_LOG_STREAM else data),
                      (getMessage error ++ newline)%string)])) /\
  (exists pri text,
     tj_log_logcatLog getMessage data level component file func line error msg =
     (pri, component, text) :: (if error =? 0 then [] else [(pri, component, getMessage error)])).
Proof.
  split; [eexists; reflexivity|].
  destruct level; do 2 eexists; reflexivity.
Qed.

(** The two renderings the spec gives as examples, with the timestamp
    "2013/01/02 03:04:05". *)
Example tj_log_fprintfLog_spec_examples :
  tj_log_fprintfLog (fun _ => "oops"%string) "2013/01/02 03:04:05" 0 TJ_LOG_LEVEL_OUTPUT
    "X" "a.c" "f" 42 0 "hello" =
    [(TJ_LOG_STREAM, "2013/01/02 03:04:05 hello" ++ newline)%string] /\
  tj_log_fprintfLog (fun _ => "oops"%string) "2013/01/02 03:04:05" 0 TJ_LOG_LEVEL_CRITICAL
    "net" "a.c" "f" 42 7 "boom" =
    [(TJ_LOG_STREAM, "[CRITICAL] 2013/01/02 03:04:05 net a.c:f:42: boom" ++ newline)%string;
     (TJ_LOG_STREAM, "oops" ++ newline)%string].
Proof. split; reflexivity. Qed.

(** C1 (code defect): removing the channel at the head of the chain
    finalizes it but leaves [tj_log_channelStack] pointing at it, since
    only the predecessor's link is repaired.  With the default registry,
    [tj_log_removePrintfChannel] leaves the console channel reachable
    from the head after finalizing it; for a heap-owned channel pushed by
    [tj_log_addOutChannel] and removed again, the head dangles on freed
    memory and the next [tj_log_log] is undefined. *)
Theorem tj_log_removeOutChannel_head_not_unlinked :
  match tj_log_removePrintfChannel tj_log_init with
  | Some (r, st') =>
      r = 0%Z /\
      tj_log_channelStack st' = tj_log_fprintfChannel_ptr /\
      heap st' = heap tj_log_init /\
      trace st' = [EvFinalize tj_log_fprintfLogFinalize_fn 0]
  | None => False
  end /\
  (forall vp : string -> list va_arg -> string,
   match (p <-- tj_log_outchannel_create vp true true 7 8 9 ;;
          tj_log_addOutChannel p ;;;
          tj_log_removeOutChannel p) tj_log_init with
   | Some (_, st') =>
       tj_log_channelStack st' = 2 /\ heap st' !! 2 = None /\
       trace st' = [EvAtexit; EvFinalize 9 7; EvFree 2] /\
       tj_log_log vp true TJ_LOG_LEVEL_OUTPUT "c" "a.c" "f" 1 0 "hi" [] st' = None
   | None => False
   end).
Proof.
  split; [|intros vp]; vm_compute; repeat split.
Qed.

(** C2 (code defect): [tj_log_finalize] finalizes the chain and clears
    the flag but never clears [tj_log_channelStack].  With the default
    registry a second call finalizes the console channel a second time;
    with a heap-owned channel at the head, the second call reads freed
    memory (undefined). *)
Theorem tj_log_finalize_head_not_cleared :
  match (tj_log_finalize ;;; tj_log_finalize) tj_log_init with
  | Some (_, st2) =>
      tj_log_channelStack st2 = tj_log_fprintfChannel_ptr /\ tj_log_atexit st2 = 0%Z /\
      trace st2 = [EvFinalize tj_log_fprintfLogFinalize_fn 0;
                   EvFinalize tj_log_fprintfLogFinalize_fn 0]
  | None => False
  end /\
  (forall vp : string -> list va_arg -> string,
   match (p <-- tj_log_outchannel_create vp true true 7 8 9 ;;
          tj_log_addOutChannel p ;;;
          tj_log_finalize) tj_log_init with
   | Some (_, st1) =>
       tj_log_channelStack st1 = 2 /\ heap st1 !! 2 = None /\
       trace st1 = [EvAtexit; EvFinalize 9 7; EvFree 2;
                    EvFinalize tj_log_fprintfLogFinalize_fn 0] /\
       tj_log_finalize st1 = None
   | None => False
   end).
Proof.
  split; [|intros vp]; vm_compute; repeat split.
Qed.

(** ** Witnesses: the hypotheses of the claims hold on the default registry *)

Lemma tj_log_log_dispatch_each_channel_witness :
  chain (heap tj_log_init) (tj_log_channelStack tj_log_init) [tj_log_fprintfChannel_ptr] /\
  logs_nonnull (heap tj_log_init) [tj_log_fprintfChannel_ptr] = true /\
  exists st', run_logs (fun m _ => m)
                [mk_log_call TJ_LOG_LEVEL_OUTPUT "c" "a.c" "f" 1 0 "one" [];
                 mk_log_call TJ_LOG_LEVEL_LOGIC "c" "a.c" "f" 2 0 "two" []] tj_log_init
              = Some (tt, st').
Proof.
  assert (H : chain (heap tj_log_init) (tj_log_channelStack tj_log_init)
                    [tj_log_fprintfChannel_ptr])
    by (apply (chain_cons _ 1 tj_log_fprintfChannel []);
        [discriminate | reflexivity | constructor]).
  assert (Hnn : logs_nonnull (heap tj_log_init) [tj_log_fprintfChannel_ptr] = true)
    by reflexivity.
  split; [exact H|]. split; [exact Hnn|].
  destruct (tj_log_log_dispatch_each_channel (fun m _ => m)
              [mk_log_call TJ_LOG_LEVEL_OUTPUT "c" "a.c" "f" 1 0 "one" [];
               mk_log_call TJ_LOG_LEVEL_LOGIC "c" "a.c" "f" 2 0 "two" []]
              tj_log_init _ H Hnn) as (st' & Hr & _).
  exists st'. exact Hr.
Defined.

Lemma tj_log_log_buffer_failure_abandons_witness :
  chain (heap tj_log_init) (tj_log_channelStack tj_log_init) [tj_log_fprintfChannel_ptr] /\
  logs_nonnull (heap tj_log_init) [tj_log_fprintfChannel_ptr] = true /\
  tj_log_log (fun m _ => m) false TJ_LOG_LEVEL_OUTPUT "c" "a.c" "f" 1 0 "hi" [] tj_log_init =
    Some (tt, mk_state (heap tj_log_init) tj_log_fprintfChannel_ptr 0
                   [EvError "No memory for tj_log_log buffer."]) /\
  exists st', tj_log_log (fun m _ => m) true TJ_LOG_LEVEL_OUTPUT "c" "a.c" "f" 1 0 "hi" []
                tj_log_init = Some (tt, st').
Proof.
  assert (H : chain (heap tj_log_init) (tj_log_channelStack tj_log_init)
                    [tj_log_fprintfChannel_ptr])
    by (apply (chain_cons _ 1 tj_log_fprintfChannel []);
        [discriminate | reflexivity | constructor]).
  assert (Hnn : logs_nonnull (heap tj_log_init) [tj_log_fprintfChannel_ptr] = true)
    by reflexivity.
  destruct (tj_log_log_buffer_failure_abandons (fun m _ => m) TJ_LOG_LEVEL_OUTPUT
              "c" "a.c" "f" 1 0 "hi" [] tj_log_init _ H) as [Hf Hok].
  split; [exact H|]. split; [exact Hnn|]. split; [exact Hf|].
  eexists. exact (Hok Hnn).
Defined.

Lemma tj_log_atexit_one_shot_witness :
  chain (heap tj_log_init) (tj_log_channelStack tj_log_init) [tj_log_fprintfChannel_ptr] /\
  tj_log_fprintfChannel_ptr <> 0 /\
  heap tj_log_init !! tj_log_fprintfChannel_ptr = Some tj_log_fprintfChannel /\
  exists st1, tj_log_finalize tj_log_init = Some (tt, st1) /\ tj_log_atexit st1 = 0%Z.
Proof.
  assert (H : chain (heap tj_log_init) (tj_log_channelStack tj_log_init)
                    [tj_log_fprintfChannel_ptr])
    by (apply (chain_cons _ 1 tj_log_fprintfChannel []);
        [discriminate | reflexivity | constructor]).
  assert (H0 : tj_log_fprintfChannel_ptr <> 0) by discriminate.
  assert (Hc : heap tj_log_init !! tj_log_fprintfChannel_ptr = Some tj_log_fprintfChannel)
    by reflexivity.
  split; [exact H|]. split; [exact H0|]. split; [exact Hc|].
  destruct (tj_log_atexit_one_shot tj_log_init _ _ _ H H0 Hc) as [_ (st1 & Hf & Hax & _)].
  exists st1. split; [exact Hf | exact Hax].
Defined.

Lemma tj_log_outchannel_create_spec_witness :
  chain (heap tj_log_init) (tj_log_channelStack tj_log_init) [tj_log_fprintfChannel_ptr] /\
  exists st', tj_log_outchannel_create (fun m _ => m) false true 7 8 9 tj_log_init = Some (0, st') /\
              heap st' = heap tj_log_init.
Proof.
  assert (H : chain (heap tj_log_init) (tj_log_channelStack tj_log_init)
                    [tj_log_fprintfChannel_ptr])
    by (apply (chain_cons _ 1 tj_log_fprintfChannel []);
        [discriminate | reflexivity | constructor]).
  split; [exact H|].
  assert (Hnn : true = true ->
                logs_nonnull (heap tj_log_init) [tj_log_fprintfChannel_ptr] = true)
    by (intros _; reflexivity).
  destruct (tj_log_outchannel_create_spec (fun m _ => m) true 7 8 9 tj_log_init _ H)
    as [Hfail _].
  destruct (Hfail Hnn) as (st' & Hr & Hh & _).
  exists st'. split; [exact Hr | exact Hh].
Defined.

Lemma tj_log_removeOutChannel_absent_witness :
  chain (heap tj_log_init) (tj_log_channelStack tj_log_init) [tj_log_fprintfChannel_ptr] /\
  (5 ∉ [tj_log_fprintfChannel_ptr]) /\
  tj_log_removeOutChannel 5 tj_log_init = Some (tt, tj_log_init).
Proof.
  assert (H : chain (heap tj_log_init) (tj_log_channelStack tj_log_init)
                    [tj_log_fprintfChannel_ptr])
    by (apply (chain_cons _ 1 tj_log_fprintfChannel []);
        [discriminate | reflexivity | constructor]).
  assert (H5 : 5 ∉ [tj_log_fprintfChannel_ptr])
    by (apply not_elem_of_cons; split; [discriminate | apply not_elem_of_nil]).
  split; [exact H|]. split; [exact H5|].
  exact (tj_log_removeOutChannel_absent 5 tj_log_init _ H H5).
Defined.

Lemma tj_log_addOutChannel_pushes_witness :
  tj_log_fprintfChannel_ptr <> 0 /\
  heap tj_log_init !! tj_log_fprintfChannel_ptr = Some tj_log_fprintfChannel /\
  exists st', tj_log_addOutChannel tj_log_fprintfChannel_ptr tj_log_init = Some (0%Z, st') /\
              tj_log_channelStack st' = tj_log_fprintfChannel_ptr.
Proof.
  assert (H0 : tj_log_fprintfChannel_ptr <> 0) by discriminate.
  assert (Hc : heap tj_log_init !! tj_log_fprintfChannel_ptr = Some tj_log_fprintfChannel)
    by reflexivity.
  split; [exact H0|]. split; [exact Hc|].
  destruct (tj_log_addOutChannel_pushes _ _ tj_log_init H0 Hc) as (st' & Hr & Hhd & _).
  exists st'. split; [exact Hr | exact Hhd].
Defined.

(** ** Further lemmas on the registry operations *)

Lemma last_cons_shift (l : list N) (q d : N) : List.last (q :: l) d = List.last l q.
Proof.
  revert q d. induction l as [|r l IH]; intros q d; [done|].
  change (List.last (r :: l) d = List.last (r :: l) q). by rewrite !IH.
Qed.

Lemma remove_scan_found h l1 : forall top prev fuel st out l2,
  chain h top (l1 ++ out :: l2) -> heap st = h -> out ∉ l1 ->
  (length (l1 ++ out :: l2) < fuel)%nat ->
  remove_scan fuel out top prev st = Some ((out, List.last l1 prev), st).
Proof.
  induction l1 as [|q l1 IH]; intros top prev fuel st out l2 Hch Hh Hout Hf;
    (destruct fuel as [|fuel]; [simpl in Hf; lia|]).
  - inversion Hch as [|p' c l' Hp Hc Hl]; subst. simpl.
    rewrite N.eqb_refl, orb_true_r. done.
  - inversion Hch as [|p' c l' Hp Hc Hl]; subst.
    apply not_elem_of_cons in Hout as [Hne Hout]. rewrite last_cons_shift. simpl.
    destruct (N.eqb_spec q 0) as [|_]; [done|].
    destruct (N.eqb_spec q out) as [|_]; [congruence|]. simpl.
    unfold bind, load. destruct (N.eqb_spec q 0) as [|_]; [done|]. rewrite Hc.
    apply (IH _ q fuel _ _ l2); simpl in *; auto with lia.
Qed.

Lemma chain_insert_same_next h p l q c c' :
  h !! q = Some c -> m_next c' = m_next c -> chain h p l -> chain (<[q := c']> h) p l.
Proof.
  intros Hq Hn. induction 1 as [|p c0 l Hp Hc Hl IH]; [constructor|].
  destruct (decide (p = q)) as [->|Hne].
  - econstructor; [done | apply lookup_insert_eq |]. rewrite Hn. congruence.
  - econstructor; [done | rewrite lookup_insert_ne; eauto | done].
Qed.

(** Redirecting [prev]'s link past [out] bypasses [out] in the chain. *)
Lemma chain_bypass h l1 : forall p prev cp out cout l2,
  chain h p (l1 ++ prev :: out :: l2) -> h !! prev = Some cp -> h !! out = Some cout ->
  chain (<[prev := set_m_next cp (m_next cout)]> h) p (l1 ++ prev :: l2).
Proof.
  induction l1 as [|q l1 IH]; intros p prev cp out cout l2 Hch Hp Ho.
  - pose proof (chain_NoDup _ _ _ Hch) as Hnd.
    apply NoDup_cons in Hnd as [Hnin _]. apply not_elem_of_cons in Hnin as [_ Hnin].
    inversion Hch as [|p' c l' Hp0 Hc Hl]; subst. rewrite Hp in Hc. injection Hc as <-.
    inversion Hl as [|p'' c' l'' Ho0 Hc' Hl']; subst. rewrite Ho in Hc'. injection Hc' as <-.
    econstructor; [done | apply lookup_insert_eq |]. simpl.
    by apply chain_insert.
  - pose proof (chain_NoDup _ _ _ Hch) as Hnd. apply NoDup_cons in Hnd as [Hq _].
    assert (Hqp : q <> prev) by (intros ->; apply Hq; set_solver).
    inversion Hch as [|p' c l' Hp0 Hc Hl]; subst.
    econstructor; [done | rewrite lookup_insert_ne; eauto |]. by apply (IH _ _ _ out cout).
Qed.

Lemma fin_events_insert_ne h p q c : p <> q -> fin_events (<[p := c]> h) q = fin_events h q.
Proof. intros Hne. unfold fin_events. by rewrite lookup_insert_ne. Qed.

Lemma fin_heap_lookup_ne h p q : q <> p -> fin_heap h p !! q = h !! q.
Proof.
  intros Hne. unfold fin_heap. destruct (h !! p) as [c|]; [|done].
  destruct (m_allocated c =? 0)%Z; [done|]. by rewrite lookup_delete_ne.
Qed.

Lemma chain_fin_heap h p l q : chain h p l -> q ∉ l -> chain (fin_heap h q) p l.
Proof.
  intros Hch Hq. unfold fin_heap. destruct (h !! q) as [c|]; [|done].
  destruct (m_allocated c =? 0)%Z; [done|]. by apply chain_delete.
Qed.

(** Removing a channel that has a predecessor [prev] in the chain. *)
Lemma remove_unlink_step st l1 l2 prev out :
  chain (heap st) (tj_log_channelStack st) (l1 ++ prev :: out :: l2) ->
  exists cp cout,
    heap st !! prev = Some cp /\ heap st !! out = Some cout /\
    tj_log_removeOutChannel out st =
    Some (tt, mk_state (fin_heap (<[prev := set_m_next cp (m_next cout)]> (heap st)) out)
                   (tj_log_channelStack st) (tj_log_atexit st)
                   (trace st ++ fin_events (heap st) out)).
Proof.
  intros Hch.
  pose proof (chain_NoDup _ _ _ Hch) as Hnd.
  assert (Hout_in : out ∈ l1 ++ prev :: out :: l2) by set_solver.
  assert (Hprev_in : prev ∈ l1 ++ prev :: out :: l2) by set_solver.
  destruct (chain_in _ _ _ _ Hch Hout_in) as [Ho0 [cout Hco]].
  destruct (chain_in _ _ _ _ Hch Hprev_in) as [Hp0 [cp Hcp]].
  assert (Hnd' : NoDup ((l1 ++ [prev]) ++ out :: l2)) by (by rewrite <- app_assoc).
  apply NoDup_app in Hnd' as (_ & Hdisj & _).
  assert (Hout1 : out ∉ l1 ++ [prev]) by (intros Hin; apply (Hdisj out Hin); set_solver).
  assert (Hpo : prev <> out) by (intros ->; apply Hout1; set_solver).
  exists cp, cout. split; [done|]. split; [done|].
  destruct st as [h hd ax tr]; simpl in *.
  unfold tj_log_removeOutChannel. unfold bind at 1, get_head. unfold bind at 1, get_heap.
  cbn [heap tj_log_channelStack tj_log_atexit trace]. unfold bind at 1.
  rewrite (remove_scan_found h (l1 ++ [prev]) hd 0 (S (size h)) _ out l2); simpl; auto.
  2: by rewrite <- app_assoc.
  2: { rewrite <- app_assoc. pose proof (chain_length_size _ _ _ Hch). simpl. lia. }
  rewrite List.last_last.
  apply N.eqb_neq in Ho0 as Ho0'. apply N.eqb_neq in Hp0 as Hp0'. rewrite Ho0', Hp0'.
  unfold bind, load, store. simpl. do 3 (rewrite ?Hp0', ?Hcp, ?Ho0', ?Hco; simpl).
  rewrite (outchannel_finalize_step out cout); simpl.
  - by rewrite fin_events_insert_ne.
  - done.
  - by rewrite lookup_insert_ne.
Qed.

Lemma remove_inner_result st l1 l2 prev out :
  chain (heap st) (tj_log_channelStack st) (l1 ++ prev :: out :: l2) ->
  exists st', tj_log_removeOutChannel out st = Some (tt, st') /\
    tj_log_channelStack st' = tj_log_channelStack st /\ tj_log_atexit st' = tj_log_atexit st /\
    trace st' = trace st ++ fin_events (heap st) out /\
    chain (heap st') (tj_log_channelStack st') (l1 ++ prev :: l2) /\
    out ∉ l1 ++ prev :: l2.
Proof.
  intros Hch.
  pose proof (chain_NoDup _ _ _ Hch) as Hnd.
  assert (Hout : out ∉ l1 ++ prev :: l2).
  { apply NoDup_app in Hnd as (_ & Hdisj & Hnd2).
    apply NoDup_cons in Hnd2 as [Hp Hnd2]. apply NoDup_cons in Hnd2 as [Ho _].
    intros Hin. apply elem_of_app in Hin as [Hin|Hin].
    - apply (Hdisj out Hin). set_solver.
    - apply elem_of_cons in Hin as [->|Hin]; [apply Hp; set_solver | done]. }
  destruct (remove_unlink_step st l1 l2 prev out Hch) as (cp & cout & Hcp & Hco & Hr).
  eexists. split; [exact Hr|]. simpl. repeat split; try done.
  apply chain_fin_heap; [|done]. by apply (chain_bypass _ _ _ _ _ out).
Qed.

Lemma fin_trace_flat_map h l : NoDup l -> fin_trace h l = flat_map (fin_events h) l.
Proof.
  revert h. induction l as [|p l IH]; intros h Hnd; [done|].
  apply NoDup_cons in Hnd as [Hp Hnd]. simpl. rewrite IH by done. f_equal.
  clear IH Hnd. induction l as [|q l IHl]; [done|].
  apply not_elem_of_cons in Hp as [Hpq Hp]. simpl. rewrite IHl by done. f_equal.
  unfold fin_events. rewrite fin_heap_lookup_ne; auto.
Qed.

Lemma release_lookup h l q : NoDup l ->
  release h l !! q =
  if bool_decide (q ∈ l) then
    match h !! q with
    | Some c => if (m_allocated c =? 0)%Z then Some c else None
    | None => None
    end
  else h !! q.
Proof.
  revert h. induction l as [|p l IH]; intros h Hnd; [done|].
  apply NoDup_cons in Hnd as [Hp Hnd]. simpl. rewrite IH by done.
  destruct (decide (q = p)) as [->|Hne].
  - rewrite bool_decide_false by done. rewrite bool_decide_true by set_solver.
    unfold fin_heap. destruct (h !! p) as [c|] eqn:Hc; [|by rewrite Hc].
    destruct (m_allocated c =? 0)%Z; [by rewrite Hc|]. by rewrite lookup_delete_eq.
  - rewrite fin_heap_lookup_ne by done.
    assert (Hiff : bool_decide (q ∈ p :: l) = bool_decide (q ∈ l)).
    { apply bool_decide_ext. rewrite elem_of_cons. naive_solver. }
    by rewrite Hiff.
Qed.

Lemma map_log_event_insert_ne h out x level component file func line error s l :
  out ∉ l ->
  map (log_event (<[out := x]> h) level component file func line error s) l =
  map (log_event h level component file func line error s) l.
Proof.
  induction l as [|q l IH]; intros Hout; [done|].
  apply not_elem_of_cons in Hout as [Hne Hout]. simpl. rewrite IH by done. f_equal.
  unfold log_event. by rewrite lookup_insert_ne.
Qed.

Lemma logs_nonnull_insert_same_log h l q c c' :
  h !! q = Some c -> log c' = log c ->
  logs_nonnull (<[q := c']> h) l = logs_nonnull h l.
Proof.
  intros Hq Hl. unfold logs_nonnull. induction l as [|p l IH]; [done|]. simpl. rewrite IH.
  destruct (decide (p = q)) as [->|Hne].
  - by rewrite lookup_insert_eq, Hq, Hl.
  - by rewrite lookup_insert_ne.
Qed.

Lemma logs_nonnull_insert_ne h l q x :
  q ∉ l -> logs_nonnull (<[q := x]> h) l = logs_nonnull h l.
Proof.
  unfold logs_nonnull. induction l as [|p l IH]; intros Hq; [done|].
  apply not_elem_of_cons in Hq as [Hne Hq].
  simpl. rewrite IH by done. by rewrite lookup_insert_ne.
Qed.


Lemma chain_reaches_inserted h x out l : forall p l'',
  chain h p l -> out ∈ l -> chain (<[out := x]> h) p l'' -> out ∈ l''.
Proof.
  induction l as [|q l IH]; intros p l'' Hch Hin Hch'; [by apply elem_of_nil in Hin|].
  inversion Hch as [|p' c l0 Hq Hc Hl]; subst.
  destruct (decide (q = out)) as [->|Hne].
  - inversion Hch' as [|p' c' l1 Hq' Hc' Hl']; subst; [done|]. set_solver.
  - apply elem_of_cons in Hin as [->|Hin]; [done|].
    inversion Hch' as [|p' c' l1 Hq' Hc' Hl']; subst; [done|].
    rewrite lookup_insert_ne in Hc' by auto. rewrite Hc in Hc'. injection Hc' as <-.
    apply elem_of_cons. right. by apply (IH (m_next c)).
Qed.

Lemma flat_map_fin_events_agree h h' l :
  (forall q, q ∈ l -> h' !! q = h !! q) ->
  flat_map (fin_events h') l = flat_map (fin_events h) l.
Proof.
  induction l as [|q l IH]; intros Hag; [done|]. simpl.
  rewrite IH by (intros r Hr; apply Hag; set_solver). f_equal.
  unfold fin_events. rewrite Hag; [done | set_solver].
Qed.

Lemma tj_log_outchannel_create_ok_step vp buf_ok data log_fn finalize_fn st :
  let x := fresh (dom (heap st) ∪ {[0]}) in
  x <> 0 /\ heap st !! x = None /\
  tj_log_outchannel_create vp true buf_ok data log_fn finalize_fn st =
  Some (x, mk_state (<[x := mk_outchannel 1 data log_fn finalize_fn 0]> (heap st))
                    (tj_log_channelStack st) (tj_log_atexit st) (trace st)).
Proof.
  intros x.
  assert (Hx : x ∉ dom (heap st) ∪ {[0]}) by apply is_fresh.
  assert (Hx0 : x <> 0) by (intros Hx0; apply Hx; set_solver).
  assert (HxN : heap st !! x = None) by (apply not_elem_of_dom; set_solver).
  split; [done|]. split; [done|].
  unfold tj_log_outchannel_create, bind at 1, malloc. simpl. fold x.
  apply N.eqb_neq in Hx0 as Hx0'. rewrite Hx0'.
  unfold bind, store, ret. simpl. rewrite Hx0', lookup_insert_eq. simpl.
  by rewrite insert_insert_eq.
Qed.

Ltac solve_chain :=
  repeat (apply chain_nil || (eapply chain_cons; [discriminate | reflexivity |])).

(** ** Further properties of the registry operations *)

(** Removing a channel [out] that has a predecessor [prev] in a
    well-formed chain links [prev] to [out]'s successor and finalizes
    [out] once; the head and the atexit flag are unchanged, and the
    chain from the head is the old one without [out]. *)
Theorem tj_log_removeOutChannel_unlinks_inner (st : tj_log_state) (l1 l2 : list N) (prev out : N) :
  chain (heap st) (tj_log_channelStack st) (l1 ++ prev :: out :: l2) ->
  exists st', tj_log_removeOutChannel out st = Some (tt, st') /\
    tj_log_channelStack st' = tj_log_channelStack st /\ tj_log_atexit st' = tj_log_atexit st /\
    trace st' = trace st ++ fin_events (heap st) out /\
    chain (heap st') (tj_log_channelStack st') (l1 ++ prev :: l2) /\
    out ∉ l1 ++ prev :: l2.
Proof. apply remove_inner_result. Qed.

(** Removing the head channel [out] finalizes it (its finalize function,
    then [free] when heap-owned) but leaves the head pointing at it; when
    the channel was heap-owned the head then designates freed memory. *)
Theorem tj_log_removeOutChannel_head_kept (st : tj_log_state) (out : N) (l : list N)
    (c : tj_log_outchannel) :
  chain (heap st) (tj_log_channelStack st) (out :: l) -> heap st !! out = Some c ->
  exists st', tj_log_removeOutChannel out st = Some (tt, st') /\
    heap st' = fin_heap (heap st) out /\
    tj_log_channelStack st' = out /\ tj_log_atexit st' = tj_log_atexit st /\
    trace st' = trace st ++ fin_events (heap st) out /\
    ((m_allocated c =? 0)%Z = false -> heap st' !! tj_log_channelStack st' = None).
Proof.
  intros Hch Hc.
  destruct st as [h hd ax tr]; simpl in *.
  inversion Hch as [|p c0 l0 Hp Hc0 Hl]; subst.
  rewrite Hc in Hc0. injection Hc0 as <-.
  exists (mk_state (fin_heap h out) out ax (tr ++ fin_events h out)).
  split.
  - unfold tj_log_removeOutChannel. unfold bind at 1, get_head. unfold bind at 1, get_heap.
    cbn [heap tj_log_channelStack tj_log_atexit trace]. unfold bind at 1.
    rewrite (remove_scan_found h [] out 0 (S (size h)) (mk_state h out ax tr) out l);
      [| done | done | apply not_elem_of_nil
       | pose proof (chain_length_size _ _ _ Hch); simpl in *; lia].
    simpl.
    apply N.eqb_neq in Hp as Hp'. rewrite Hp'. unfold bind, ret. simpl.
    by rewrite (outchannel_finalize_step out c).
  - simpl. repeat split; try done.
    intros Ha. unfold fin_heap. rewrite Hc, Ha. apply lookup_delete_eq.
Qed.

(** [tj_log_finalize] on a well-formed chain [l] runs the finalization of
    every chained channel once, in chain order; afterwards the
    heap-owned channels of [l] are freed, the static ones are kept
    unchanged, every channel outside [l] is untouched, the atexit flag is
    0 and the head is not changed. *)
Theorem tj_log_finalize_releases_chain (st : tj_log_state) (l : list N) :
  chain (heap st) (tj_log_channelStack st) l ->
  exists st', tj_log_finalize st = Some (tt, st') /\
    tj_log_channelStack st' = tj_log_channelStack st /\ tj_log_atexit st' = 0%Z /\
    trace st' = trace st ++ flat_map (fin_events (heap st)) l /\
    forall q, heap st' !! q =
      if bool_decide (q ∈ l) then
        match heap st !! q with
        | Some c => if (m_allocated c =? 0)%Z then Some c else None
        | None => None
        end
      else heap st !! q.
Proof.
  intros Hch. pose proof (chain_NoDup _ _ _ Hch) as Hnd.
  rewrite (tj_log_finalize_chain st l Hch). eexists. split; [reflexivity|]. simpl.
  repeat split.
  - by rewrite fin_trace_flat_map.
  - intros q. by apply release_lookup.
Qed.

(** [tj_log_setData out data] replaces only the data handle of [out]: the
    other fields, the head, the flag and the trace stay, a well-formed
    chain stays well formed, and the next [tj_log_log] passes [data] to
    [out]'s log function when [out] is registered (the chained channels
    having log functions). *)
Theorem tj_log_setData_then_log (vp : string -> list va_arg -> string) (st : tj_log_state)
    (l : list N) (out : N) (c : tj_log_outchannel) (data : N)
    level component file func line error m ap :
  chain (heap st) (tj_log_channelStack st) l -> out <> 0 -> heap st !! out = Some c ->
  exists st', tj_log_setData out data st = Some (tt, st') /\
    heap st' = <[out := mk_outchannel (m_allocated c) data (log c) (finalize c) (m_next c)]> (heap st) /\
    tj_log_channelStack st' = tj_log_channelStack st /\ tj_log_atexit st' = tj_log_atexit st /\
    trace st' = trace st /\
    chain (heap st') (tj_log_channelStack st') l /\
    (logs_nonnull (heap st) l = true ->
     exists t, tj_log_log vp true level component file func line error m ap st' =
                Some (tt, mk_state (heap st') (tj_log_channelStack st) (tj_log_atexit st)
                               (trace st ++ [EvBufCreate 128] ++ t ++ [EvBufFree])) /\
      (out ∈ l -> EvLog out (log c) data level component file func line error (vp m ap) ∈ t)).
Proof.
  intros Hch Hout Hc. apply N.eqb_neq in Hout as Hout'.
  destruct st as [h hd ax tr]; simpl in *.
  set (c' := mk_outchannel (m_allocated c) data (log c) (finalize c) (m_next c)).
  assert (Hch' : chain (<[out := c']> h) hd l) by (by apply (chain_insert_same_next h hd l out c)).
  exists (mk_state (<[out := c']> h) hd ax tr). split.
  { unfold tj_log_setData, bind, load, store. simpl.
    do 2 (rewrite ?Hout', ?Hc; simpl). done. }
  simpl. repeat split; try done. intros Hnn.
  assert (Hnn' : logs_nonnull (<[out := c']> h) l = true)
    by (by rewrite (logs_nonnull_insert_same_log h l out c)).
  rewrite (tj_log_log_buffer_ok vp level component file func line error m ap
             (mk_state (<[out := c']> h) hd ax tr) l Hch' Hnn').
  eexists. split; [reflexivity|].
  intros Hin. apply list_elem_of_In, in_map_iff. exists out. split.
  - unfold log_event. simpl. by rewrite lookup_insert_eq.
  - by apply list_elem_of_In.
Qed.

(** Adding a channel that is not in the chain pushes it in front: the
    new chain from the head is [out :: l]. *)
Theorem tj_log_addOutChannel_fresh_chain (st : tj_log_state) (l : list N) (out : N)
    (c : tj_log_outchannel) :
  chain (heap st) (tj_log_channelStack st) l -> out <> 0 -> heap st !! out = Some c -> out ∉ l ->
  exists st', tj_log_addOutChannel out st = Some (0%Z, st') /\
    chain (heap st') (tj_log_channelStack st') (out :: l).
Proof.
  intros Hch Hout Hc Hnin. rewrite (tj_log_addOutChannel_step out c st Hout Hc).
  eexists. split; [reflexivity|]. simpl.
  econstructor; [done | apply lookup_insert_eq |]. simpl. by apply chain_insert.
Qed.

(** Adding a channel that is already in the chain (no duplicate check)
    closes a cycle: afterwards no finite NULL-terminated chain starts at
    the head, so the loops of [tj_log_log], [tj_log_removeOutChannel] and
    [tj_log_finalize] no longer reach NULL. *)
Theorem tj_log_addOutChannel_registered_cycle (st : tj_log_state) (l : list N) (out : N) :
  chain (heap st) (tj_log_channelStack st) l -> out ∈ l ->
  exists st', tj_log_addOutChannel out st = Some (0%Z, st') /\
    forall l', ~ chain (heap st') (tj_log_channelStack st') l'.
Proof.
  intros Hch Hin. destruct (chain_in _ _ _ _ Hch Hin) as [Hout [c Hc]].
  rewrite (tj_log_addOutChannel_step out c st Hout Hc).
  eexists. split; [reflexivity|]. simpl. intros l' Hch'.
  pose proof (chain_NoDup _ _ _ Hch') as Hnd.
  inversion Hch' as [|p c' l0 Hp Hc' Hl]; subst; [done|].
  rewrite lookup_insert_eq in Hc'. injection Hc' as <-. simpl in Hl.
  apply NoDup_cons in Hnd as [Hnin _]. apply Hnin.
  by apply (chain_reaches_inserted (heap st) (set_m_next c (tj_log_channelStack st))
             out l (tj_log_channelStack st)).
Qed.

(** A message logged after adding a fresh channel reaches the new channel
    first, with its data handle, then every channel of the old chain in
    order, as before (all these channels having log functions). *)
Theorem tj_log_addOutChannel_then_log (vp : string -> list va_arg -> string) (st : tj_log_state)
    (l : list N) (out : N) (c : tj_log_outchannel) level component file func line error m ap :
  chain (heap st) (tj_log_channelStack st) l -> out <> 0 -> heap st !! out = Some c -> out ∉ l ->
  exists st', tj_log_addOutChannel out st = Some (0%Z, st') /\
    (log c <> 0 -> logs_nonnull (heap st) l = true ->
     tj_log_log vp true level component file func line error m ap st' =
     Some (tt, mk_state (heap st') out (tj_log_atexit st')
                   (trace st' ++ [EvBufCreate 128;
                                  EvLog out (log c) (m_data c) level component file func line
                                        error (vp m ap)] ++
                    map (log_event (heap st) level component file func line error (vp m ap)) l ++
                    [EvBufFree]))).
Proof.
  intros Hch Hout Hc Hnin. rewrite (tj_log_addOutChannel_step out c st Hout Hc).
  eexists. split; [reflexivity|].
  assert (Hch' : chain (<[out := set_m_next c (tj_log_channelStack st)]> (heap st)) out (out :: l)).
  { econstructor; [done | apply lookup_insert_eq |]. simpl. by apply chain_insert. }
  intros Hlog Hnn.
  assert (Hnn' : logs_nonnull (<[out := set_m_next c (tj_log_channelStack st)]> (heap st))
                   (out :: l) = true).
  { unfold logs_nonnull. simpl. rewrite lookup_insert_eq. simpl.
    apply N.eqb_neq in Hlog. rewrite Hlog. simpl.
    fold (logs_nonnull (<[out := set_m_next c (tj_log_channelStack st)]> (heap st)) l).
    by rewrite logs_nonnull_insert_ne. }
  rewrite (tj_log_log_buffer_ok vp level component file func line error m ap
             (mk_state _ out _ _) (out :: l) Hch' Hnn'). simpl.
  rewrite map_log_event_insert_ne by done.
  unfold log_event at 1. rewrite lookup_insert_eq. done.
Qed.

(** Removing an inner channel a second time does nothing: the first call
    unlinks it, so the second scan does not find it. *)
Theorem tj_log_removeOutChannel_inner_twice (st : tj_log_state) (l1 l2 : list N) (prev out : N) :
  chain (heap st) (tj_log_channelStack st) (l1 ++ prev :: out :: l2) ->
  exists st', tj_log_removeOutChannel out st = Some (tt, st') /\
    tj_log_removeOutChannel out st' = Some (tt, st').
Proof.
  intros Hch. destruct (remove_inner_result st l1 l2 prev out Hch)
    as (st' & Hr & _ & _ & _ & Hch' & Hnin).
  exists st'. split; [done|].
  destruct st' as [h hd ax tr]; simpl in *.
  unfold tj_log_removeOutChannel. unfold bind at 1, get_head. unfold bind at 1, get_heap.
  cbn [heap tj_log_channelStack tj_log_atexit trace]. unfold bind at 1.
  destruct (remove_scan_absent h _ hd 0 (S (size h)) (mk_state h hd ax tr) out Hch')
    as [prev' Hs]; [done | done | pose proof (chain_length_size _ _ _ Hch'); lia |].
  by rewrite Hs.
Qed.

(** A channel created by [tj_log_outchannel_create] and registered by
    [tj_log_addOutChannel] is released by [tj_log_finalize]: its
    finalize function runs first, with its data, then the channel is
    freed, then the channels of the old chain are finalized in order. *)
Theorem tj_log_created_channel_released (vp : string -> list va_arg -> string) (buf_ok : bool)
    (data log_fn finalize_fn : N) (st : tj_log_state) (l : list N) :
  chain (heap st) (tj_log_channelStack st) l ->
  exists x st1 st2 st3,
    tj_log_outchannel_create vp true buf_ok data log_fn finalize_fn st = Some (x, st1) /\
    tj_log_addOutChannel x st1 = Some (0%Z, st2) /\
    tj_log_finalize st2 = Some (tt, st3) /\
    heap st3 !! x = None /\
    trace st3 = trace st ++ (if (tj_log_atexit st =? 0)%Z then [EvAtexit] else []) ++
      (if finalize_fn =? 0 then [] else [EvFinalize finalize_fn data]) ++ [EvFree x] ++
      flat_map (fin_events (heap st)) l.
Proof.
  intros Hch.
  destruct (tj_log_outchannel_create_ok_step vp buf_ok data log_fn finalize_fn st)
    as (Hx0 & HxN & Hcr).
  set (x := fresh (dom (heap st) ∪ {[0]})) in *.
  set (c := mk_outchannel 1 data log_fn finalize_fn 0) in *.
  assert (Hxl : x ∉ l).
  { intros Hin. destruct (chain_in _ _ _ _ Hch Hin) as [_ [? Hs]]. congruence. }
  pose proof (chain_NoDup _ _ _ Hch) as Hnd.
  set (st1 := mk_state (<[x := c]> (heap st)) (tj_log_channelStack st) (tj_log_atexit st)
                       (trace st)) in *.
  assert (Hx1 : heap st1 !! x = Some c) by apply lookup_insert_eq.
  pose proof (tj_log_addOutChannel_step x c st1 Hx0 Hx1) as Hadd.
  set (h2 := <[x := set_m_next c (tj_log_channelStack st1)]> (heap st1)) in *.
  assert (Hag : forall q, q ∈ l -> h2 !! q = heap st !! q).
  { intros q Hq. assert (q <> x) by (intros ->; done).
    unfold h2, st1. simpl. by rewrite !lookup_insert_ne. }
  assert (Hch2 : chain h2 x (x :: l)).
  { econstructor; [done | apply lookup_insert_eq |]. simpl.
    apply chain_insert; [|done]. by apply chain_insert. }
  assert (Hnd2 : NoDup (x :: l)) by (by apply NoDup_cons).
  exists x, st1. eexists. eexists.
  split; [exact Hcr|]. split; [exact Hadd|].
  split; [rewrite (tj_log_finalize_chain (mk_state h2 x _ _) (x :: l) Hch2); reflexivity|].
  cbn [heap trace tj_log_atexit st1]. split.
  - rewrite release_lookup by done. rewrite bool_decide_true by (apply elem_of_cons; by left).
    unfold h2. by rewrite lookup_insert_eq.
  - rewrite fin_trace_flat_map by done. simpl.
    rewrite (flat_map_fin_events_agree (heap st) h2 l Hag).
    unfold fin_events at 1, h2. rewrite lookup_insert_eq. simpl.
    rewrite <- !app_assoc. destruct (tj_log_atexit st =? 0)%Z, (finalize_fn =? 0); done.
Qed.

(** The logcat sink writes at least one entry; every entry it writes is
    tagged with the component, and carries the error priority exactly
    when the level is CRITICAL. *)
Theorem tj_log_logcatLog_tag_priority (getMessage : N -> string) (data : N)
    (level : tj_log_level) (component file func : string) (line : Z) (error : N) (msg : string) :
  tj_log_logcatLog getMessage data level component file func line error msg <> [] /\
  Forall (fun w : android_LogPriority * string * string =>
            w.1.2 = component /\ (w.1.1 = ANDROID_LOG_ERROR <-> level = TJ_LOG_LEVEL_CRITICAL))
    (tj_log_logcatLog getMessage data level component file func line error msg).
Proof.
  unfold tj_log_logcatLog.
  destruct level, (error =? 0); simpl; (split; [discriminate|]);
    repeat constructor; intros; discriminate.
Qed.


(** ** Witnesses: the hypotheses of the further properties hold *)

Lemma tj_log_removeOutChannel_unlinks_inner_witness :
  let st := mk_state (<[2 := mk_outchannel 1 0 tj_log_fprintfLog_fn 0 1]>
                        {[1 := tj_log_fprintfChannel]}) 2 1 [] in
  chain (heap st) (tj_log_channelStack st) ([] ++ 2 :: 1 :: []) /\
  exists st', tj_log_removeOutChannel 1 st = Some (tt, st') /\
              chain (heap st') (tj_log_channelStack st') [2].
Proof.
  intros st.
  assert (H : chain (heap st) (tj_log_channelStack st) ([] ++ 2 :: 1 :: [])) by solve_chain.
  split; [exact H|].
  destruct (tj_log_removeOutChannel_unlinks_inner st [] [] 2 1 H)
    as (st' & Hr & _ & _ & _ & Hch & _).
  exists st'. split; [exact Hr | exact Hch].
Defined.

Lemma tj_log_removeOutChannel_head_kept_witness :
  let st := mk_state (<[2 := mk_outchannel 1 0 tj_log_fprintfLog_fn 0 1]>
                        {[1 := tj_log_fprintfChannel]}) 2 1 [] in
  chain (heap st) (tj_log_channelStack st) [2; 1] /\
  heap st !! 2 = Some (mk_outchannel 1 0 tj_log_fprintfLog_fn 0 1) /\
  exists st', tj_log_removeOutChannel 2 st = Some (tt, st') /\
              tj_log_channelStack st' = 2 /\ heap st' !! tj_log_channelStack st' = None.
Proof.
  intros st.
  assert (H : chain (heap st) (tj_log_channelStack st) [2; 1]) by solve_chain.
  assert (Hc : heap st !! 2 = Some (mk_outchannel 1 0 tj_log_fprintfLog_fn 0 1))
    by reflexivity.
  split; [exact H|]. split; [exact Hc|].
  destruct (tj_log_removeOutChannel_head_kept st 2 [1] _ H Hc)
    as (st' & Hr & _ & Hhd & _ & _ & Hdang).
  exists st'. split; [exact Hr|]. split; [exact Hhd|]. apply Hdang. reflexivity.
Defined.

Lemma tj_log_finalize_releases_chain_witness :
  chain (heap tj_log_init) (tj_log_channelStack tj_log_init) [tj_log_fprintfChannel_ptr] /\
  exists st', tj_log_finalize tj_log_init = Some (tt, st') /\
              trace st' = [EvFinalize tj_log_fprintfLogFinalize_fn 0].
Proof.
  assert (H : chain (heap tj_log_init) (tj_log_channelStack tj_log_init)
                    [tj_log_fprintfChannel_ptr]) by solve_chain.
  split; [exact H|].
  destruct (tj_log_finalize_releases_chain tj_log_init _ H) as (st' & Hr & _ & _ & Htr & _).
  exists st'. split; [exact Hr|]. rewrite Htr. reflexivity.
Defined.

Lemma tj_log_setData_then_log_witness :
  chain (heap tj_log_init) (tj_log_channelStack tj_log_init) [tj_log_fprintfChannel_ptr] /\
  tj_log_fprintfChannel_ptr <> 0 /\
  heap tj_log_init !! tj_log_fprintfChannel_ptr = Some tj_log_fprintfChannel /\
  logs_nonnull (heap tj_log_init) [tj_log_fprintfChannel_ptr] = true /\
  exists st', tj_log_setData tj_log_fprintfChannel_ptr 5 tj_log_init = Some (tt, st') /\
    exists t : list event,
      tj_log_log (fun m _ => m) true TJ_LOG_LEVEL_OUTPUT "c" "a.c" "f" 1 0 "hi" [] st'
      = Some (tt, mk_state (heap st') tj_log_fprintfChannel_ptr 0
                           ([EvBufCreate 128] ++ t ++ [EvBufFree])) /\
      EvLog tj_log_fprintfChannel_ptr tj_log_fprintfLog_fn 5 TJ_LOG_LEVEL_OUTPUT
        "c" "a.c" "f" 1 0 "hi" ∈ t.
Proof.
  assert (H : chain (heap tj_log_init) (tj_log_channelStack tj_log_init)
                    [tj_log_fprintfChannel_ptr]) by solve_chain.
  assert (H0 : tj_log_fprintfChannel_ptr <> 0) by discriminate.
  assert (Hc : heap tj_log_init !! tj_log_fprintfChannel_ptr = Some tj_log_fprintfChannel)
    by reflexivity.
  assert (Hnn : logs_nonnull (heap tj_log_init) [tj_log_fprintfChannel_ptr] = true)
    by reflexivity.
  assert (Hin : tj_log_fprintfChannel_ptr ∈ [tj_log_fprintfChannel_ptr])
    by (apply elem_of_cons; left; reflexivity).
  split; [exact H|]. split; [exact H0|]. split; [exact Hc|]. split; [exact Hnn|].
  destruct (tj_log_setData_then_log (fun m _ => m) tj_log_init _ _ _ 5 TJ_LOG_LEVEL_OUTPUT
              "c" "a.c" "f" 1 0 "hi" [] H H0 Hc) as (st' & Hr & _ & _ & _ & _ & _ & Hlog).
  destruct (Hlog Hnn) as (t & Hl & Ht).
  exists st'. split; [exact Hr|]. exists t. split; [exact Hl | exact (Ht Hin)].
Defined.

Lemma tj_log_addOutChannel_fresh_chain_witness :
  let st := mk_state (<[2 := mk_outchannel 1 0 tj_log_fprintfLog_fn 0 0]>
                        {[1 := tj_log_fprintfChannel]}) 1 0 [] in
  chain (heap st) (tj_log_channelStack st) [1] /\ 2 <> 0 /\
  heap st !! 2 = Some (mk_outchannel 1 0 tj_log_fprintfLog_fn 0 0) /\ (2 ∉ [1]) /\
  exists st', tj_log_addOutChannel 2 st = Some (0%Z, st') /\
              chain (heap st') (tj_log_channelStack st') [2; 1].
Proof.
  intros st.
  assert (H : chain (heap st) (tj_log_channelStack st) [1]) by solve_chain.
  assert (H0 : (2 : N) <> 0) by discriminate.
  assert (Hc : heap st !! 2 = Some (mk_outchannel 1 0 tj_log_fprintfLog_fn 0 0)) by reflexivity.
  assert (Hn : (2 : N) ∉ [1]) by (apply not_elem_of_cons; split; [discriminate | apply not_elem_of_nil]).
  split; [exact H|]. split; [exact H0|]. split; [exact Hc|]. split; [exact Hn|].
  exact (tj_log_addOutChannel_fresh_chain st [1] 2 _ H H0 Hc Hn).
Defined.

Lemma tj_log_addOutChannel_registered_cycle_witness :
  chain (heap tj_log_init) (tj_log_channelStack tj_log_init) [tj_log_fprintfChannel_ptr] /\
  tj_log_fprintfChannel_ptr ∈ [tj_log_fprintfChannel_ptr] /\
  exists st', tj_log_addOutChannel tj_log_fprintfChannel_ptr tj_log_init = Some (0%Z, st') /\
              ~ chain (heap st') (tj_log_channelStack st') [tj_log_fprintfChannel_ptr].
Proof.
  assert (H : chain (heap tj_log_init) (tj_log_channelStack tj_log_init)
                    [tj_log_fprintfChannel_ptr]) by solve_chain.
  assert (Hin : tj_log_fprintfChannel_ptr ∈ [tj_log_fprintfChannel_ptr])
    by (apply elem_of_cons; left; reflexivity).
  split; [exact H|]. split; [exact Hin|].
  destruct (tj_log_addOutChannel_registered_cycle tj_log_init _ _ H Hin) as (st' & Hr & Hno).
  exists st'. split; [exact Hr | apply Hno].
Defined.

Lemma tj_log_addOutChannel_then_log_witness :
  let st := mk_state (<[2 := mk_outchannel 1 0 tj_log_fprintfLog_fn 0 0]>
                        {[1 := tj_log_fprintfChannel]}) 1 0 [] in
  chain (heap st) (tj_log_channelStack st) [1] /\ 2 <> 0 /\
  heap st !! 2 = Some (mk_outchannel 1 0 tj_log_fprintfLog_fn 0 0) /\ (2 ∉ [1]) /\
  exists st', tj_log_addOutChannel 2 st = Some (0%Z, st') /\
    exists r, tj_log_log (fun m _ => m) true TJ_LOG_LEVEL_OUTPUT "c" "a.c" "f" 1 0 "hi" [] st'
              = Some (tt, r).
Proof.
  intros st.
  assert (H : chain (heap st) (tj_log_channelStack st) [1]) by solve_chain.
  assert (H0 : (2 : N) <> 0) by discriminate.
  assert (Hc : heap st !! 2 = Some (mk_outchannel 1 0 tj_log_fprintfLog_fn 0 0)) by reflexivity.
  assert (Hn : (2 : N) ∉ [1]) by (apply not_elem_of_cons; split; [discriminate | apply not_elem_of_nil]).
  split; [exact H|]. split; [exact H0|]. split; [exact Hc|]. split; [exact Hn|].
  assert (Hlog : log (mk_outchannel 1 0 tj_log_fprintfLog_fn 0 0) <> 0) by discriminate.
  assert (Hnn : logs_nonnull (heap st) [1] = true) by reflexivity.
  destruct (tj_log_addOutChannel_then_log (fun m _ => m) st [1] 2 _ TJ_LOG_LEVEL_OUTPUT
              "c" "a.c" "f" 1 0 "hi" [] H H0 Hc Hn) as (st' & Ha & Hl).
  exists st'. split; [exact Ha|]. eexists. exact (Hl Hlog Hnn).
Defined.

Lemma tj_log_removeOutChannel_inner_twice_witness :
  let st := mk_state (<[2 := mk_outchannel 1 0 tj_log_fprintfLog_fn 0 1]>
                        {[1 := tj_log_fprintfChannel]}) 2 1 [] in
  chain (heap st) (tj_log_channelStack st) ([] ++ 2 :: 1 :: []) /\
  exists st', tj_log_removeOutChannel 1 st = Some (tt, st') /\
              tj_log_removeOutChannel 1 st' = Some (tt, st').
Proof.
  intros st.
  assert (H : chain (heap st) (tj_log_channelStack st) ([] ++ 2 :: 1 :: [])) by solve_chain.
  split; [exact H|].
  exact (tj_log_removeOutChannel_inner_twice st [] [] 2 1 H).
Defined.

Lemma tj_log_created_channel_released_witness :
  chain (heap tj_log_init) (tj_log_channelStack tj_log_init) [tj_log_fprintfChannel_ptr] /\
  exists x st1 st2 st3,
    tj_log_outchannel_create (fun m _ => m) true true 7 tj_log_fprintfLog_fn
      tj_log_fprintfLogFinalize_fn tj_log_init = Some (x, st1) /\
    tj_log_addOutChannel x st1 = Some (0%Z, st2) /\
    tj_log_finalize st2 = Some (tt, st3) /\ heap st3 !! x = None.
Proof.
  assert (H : chain (heap tj_log_init) (tj_log_channelStack tj_log_init)
                    [tj_log_fprintfChannel_ptr]) by solve_chain.
  split; [exact H|].
  destruct (tj_log_created_channel_released (fun m _ => m) true 7 tj_log_fprintfLog_fn
              tj_log_fprintfLogFinalize_fn tj_log_init _ H)
    as (x & st1 & st2 & st3 & H1 & H2 & H3 & H4 & _).
  exists x, st1, st2, st3. repeat split; assumption.
Defined.

